(** * dl-animate: the image stack alignment and transform pipeline

    A shallow embedding of [animate/utils/img_proc.py],
    [animate/utils/coregister.py] and the frame loop of
    [animate/utils/animation.py], together with the properties of the
    pipeline that the design document states about them.

    Numbers.  NumPy arrays hold IEEE floating-point values.  The embedding
    keeps the four IEEE classes apart (finite, [+inf], [-inf], [nan]) because
    the normaliser's behaviour on a degenerate percentile range is decided by
    them, and computes on finite values exactly, as rationals: rounding to
    the nearest representable float is abstracted away, in the arrays and in
    the Python floats of [crop_img] alike.  Every concrete input used below
    is made of small dyadic numbers on which the float operations of the
    source are exact, so that the source can be re-traced by hand on them.
    The general statements about the normaliser are made for the floating
    target type, where the abstraction costs a rounding error; after the
    truncation to [uint8] a rounding error can change the integer. *)

From Stdlib Require Import Ascii String.
From Stdlib Require Import QArith Qround Qabs ZArith List Bool Lia Lqa.
From Stdlib Require Import Permutation Sorted.
Import ListNotations.

Set Implicit Arguments.

Local Open Scope Q_scope.

(** ** Python exceptions and the error monad *)

Inductive exn : Type :=
| IndexError
| ValueError
| ZeroDivisionError
| TypeError.

Inductive result (A : Type) : Type :=
| Ok (a : A)
| Raise (e : exn).

Arguments Ok {A} a.
Arguments Raise {A} e.

Definition bind {A B : Type} (m : result A) (k : A -> result B) : result B :=
  match m with
  | Ok a => k a
  | Raise e => Raise e
  end.

Notation "x <- m ;; k" := (bind m (fun x => k))
  (at level 61, m at next level, right associativity).

Fixpoint mapM {A B : Type} (f : A -> result B) (l : list A) : result (list B) :=
  match l with
  | [] => Ok []
  | a :: l' => b <- f a ;; bs <- mapM f l' ;; Ok (b :: bs)
  end.

(** ** Array elements *)

Module Num.

Inductive val : Type :=
| Fin (q : Q)
| PInf
| NInf
| NaN.

Definition is_nan (v : val) : bool :=
  match v with NaN => true | _ => false end.

Definition is_finite (v : val) : bool :=
  match v with Fin _ => true | _ => false end.

(** Sign of a finite value: the sign an infinity takes when multiplied
    by it. *)
Definition sgn (q : Q) : comparison := q ?= 0.

Definition inf_of (c : comparison) : val :=
  match c with Gt => PInf | Lt => NInf | Eq => NaN end.

Definition flip (c : comparison) : comparison := CompOpp c.

Definition vopp (a : val) : val :=
  match a with
  | Fin x => Fin (Qred (- x))
  | PInf => NInf
  | NInf => PInf
  | NaN => NaN
  end.

Definition vadd (a b : val) : val :=
  match a, b with
  | NaN, _ | _, NaN => NaN
  | Fin x, Fin y => Fin (Qred (x + y))
  | PInf, NInf | NInf, PInf => NaN
  | PInf, _ | _, PInf => PInf
  | NInf, _ | _, NInf => NInf
  end.

Definition vsub (a b : val) : val := vadd a (vopp b).

Definition vmul (a b : val) : val :=
  match a, b with
  | NaN, _ | _, NaN => NaN
  | Fin x, Fin y => Fin (Qred (x * y))
  | Fin x, PInf | PInf, Fin x => inf_of (sgn x)
  | Fin x, NInf | NInf, Fin x => inf_of (flip (sgn x))
  | PInf, PInf | NInf, NInf => PInf
  | PInf, NInf | NInf, PInf => NInf
  end.

(** NumPy scalar division: a division by zero is not an exception, it
    gives an infinity (or [nan] for [0/0]) and a warning. *)
Definition vdiv (a b : val) : val :=
  match a, b with
  | NaN, _ | _, NaN => NaN
  | Fin x, Fin y =>
      if Qeq_bool y 0 then inf_of (sgn x) else Fin (Qred (x / y))
  | Fin _, PInf | Fin _, NInf => Fin 0
  | PInf, Fin y => if Qle_bool 0 y then PInf else NInf
  | NInf, Fin y => if Qle_bool 0 y then NInf else PInf
  | _, _ => NaN
  end.

(** The order of the non-[nan] values. *)
Definition vleb (a b : val) : bool :=
  match a, b with
  | NaN, _ | _, NaN => false
  | NInf, _ => true
  | _, PInf => true
  | Fin x, Fin y => Qle_bool x y
  | _, _ => false
  end.

(** [np.maximum] and [np.minimum] against a finite bound: [nan] is
    propagated. *)
Definition vmax_q (a : val) (lo : Q) : val :=
  match a with
  | NaN => NaN
  | _ => if vleb a (Fin lo) then Fin lo else a
  end.

Definition vmin_q (a : val) (hi : Q) : val :=
  match a with
  | NaN => NaN
  | _ => if vleb (Fin hi) a then Fin hi else a
  end.

(** Equality of values up to the representation of a rational. *)
Definition veq (a b : val) : Prop :=
  match a, b with
  | Fin x, Fin y => x == y
  | PInf, PInf | NInf, NInf | NaN, NaN => True
  | _, _ => False
  end.

End Num.

Export Num.

Notation "a =v= b" := (veq a b) (at level 70, no associativity).

(** ** Python integers, indices and slices *)

Module Py.

(** [round(x)] on a float: to the nearest integer, ties to the even one. *)
Definition round (x : Q) : Z :=
  let f := Qfloor x in
  match ((x - inject_Z f) ?= (1 # 2))%Q with
  | Lt => f
  | Gt => (f + 1)%Z
  | Eq => if Z.even f then f else (f + 1)%Z
  end.

(** [l[i]] for an integer [i]: negative indices count from the end. *)
Definition index {A : Type} (l : list A) (i : Z) : result A :=
  let n := Z.of_nat (length l) in
  let j := if (i <? 0)%Z then (i + n)%Z else i in
  if ((j <? 0) || (n <=? j))%Z then Raise IndexError
  else match nth_error l (Z.to_nat j) with
       | Some a => Ok a
       | None => Raise IndexError
       end.

(** Where a slice bound lands in a sequence of length [n]
    ([slice.indices], step 1). *)
Definition clamp (n i : Z) : Z :=
  if (i <? 0)%Z then Z.max (i + n) 0 else Z.min i n.

(** [l[start:stop]]. *)
Definition slice {A : Type} (start stop : Z) (l : list A) : list A :=
  let n := Z.of_nat (length l) in
  let lo := clamp n start in
  let hi := clamp n stop in
  firstn (Z.to_nat (hi - lo)) (skipn (Z.to_nat lo) l).

(** [l[:-1]]. *)
Definition drop_last {A : Type} (l : list A) : list A :=
  slice 0 (-1) l.

Definition ascii_lower (c : ascii) : ascii :=
  let n := nat_of_ascii c in
  if ((65 <=? n) && (n <=? 90))%nat then ascii_of_nat (n + 32) else c.

(** [s.lower()] on ASCII text. *)
Fixpoint lower (s : string) : string :=
  match s with
  | EmptyString => EmptyString
  | String c s' => String (ascii_lower c) (lower s')
  end.

End Py.

(** ** Sorting, as [np.sort] and [np.partition] order their input *)

Section Sorting.

Variable A : Type.
Variable leb : A -> A -> bool.

Fixpoint insert (x : A) (l : list A) : list A :=
  match l with
  | [] => [x]
  | y :: l' => if leb x y then x :: l else y :: insert x l'
  end.

Fixpoint sort (l : list A) : list A :=
  match l with
  | [] => []
  | x :: l' => insert x (sort l')
  end.

End Sorting.

(** ** Three-dimensional arrays (rows, columns, channels) *)

Record ndarray : Type := mk_ndarray {
  nrows : nat;
  ncols : nat;
  nchans : nat;
  data : list (list (list val))
}.

(** The shape fields describe the nested data. *)
Definition wf_ndarray (a : ndarray) : Prop :=
  length (data a) = nrows a /\
  Forall (fun r => length r = ncols a /\
                   Forall (fun px => length px = nchans a) r) (data a).

Definition map_ndarray (f : val -> val) (a : ndarray) : ndarray :=
  mk_ndarray (nrows a) (ncols a) (nchans a)
             (map (map (map f)) (data a)).

(** The elements in row-major order. *)
Definition ravel (a : ndarray) : list val := concat (concat (data a)).

(** ** img_proc.py *)

Inductive dtype : Type :=
| float32
| uint8.

Definition Qtrunc (q : Q) : Z :=
  if Qle_bool 0 q then Qfloor q else Qceiling q.

(** [arr.astype(dtype)], for the two target types that the repository
    uses.  A float keeps its value (rounding is abstracted).  The conversion
    to [uint8] truncates towards zero; outside [0, 255] C leaves the
    conversion undefined, and the usual outcome (the integer modulo 256, and
    0 for a non-finite value) is the one taken here. *)
Definition astype (dt : dtype) (v : val) : val :=
  match dt with
  | float32 => v
  | uint8 =>
      match v with
      | Fin q => Fin (inject_Z (Qtrunc q mod 256))
      | _ => Fin 0
      end
  end.

(** [np.clip(x, lo, hi)] is [minimum(maximum(x, lo), hi)]. *)
Definition clip (lo hi : Q) (v : val) : val := vmin_q (vmax_q v lo) hi.

(** NumPy's linear interpolation between two neighbouring order
    statistics. *)
Definition lerp (a b : val) (t : Q) : val :=
  if Qle_bool (1 # 2) t
  then vsub b (vmul (vsub b a) (Fin (1 - t)))
  else vadd a (vmul (vsub b a) (Fin t)).

(** [np.nanpercentile(a, p)] over the flattened array: [nan] entries are
    dropped, the rest is ordered, and the value at the fractional position
    [p/100 * (n-1)] is interpolated linearly.  Without any entry left the
    result is [nan] (and a warning). *)
Definition nanpercentile (a : list val) (p : Q) : result val :=
  if negb (Qle_bool 0 p && Qle_bool p 100) then Raise ValueError
  else
    let s := sort vleb (filter (fun v => negb (is_nan v)) a) in
    match s with
    | [] => Ok NaN
    | _ :: _ =>
        let n := Z.of_nat (length s) in
        let virtual := (p / 100) * inject_Z (n - 1) in
        let previous := Qfloor virtual in
        let next := Z.min (previous + 1) (n - 1) in
        let gamma := virtual - inject_Z previous in
        Ok (lerp (nth (Z.to_nat previous) s NaN) (nth (Z.to_nat next) s NaN)
                 gamma)
    end.

Definition rescale_img (img : ndarray) (min_val max_val : Q) (dt : dtype)
    (pmin pmax : Q) : result ndarray :=
  (* compute min and max percentile ranges to scale with *)
  vmin <- nanpercentile (ravel img) pmin ;;
  vmax <- nanpercentile (ravel img) pmax ;;
  (* rescale & clip *)
  let k := vmul (vdiv (Fin 1) (vsub vmax vmin)) (Fin max_val) in
  let img_rescale :=
    map_ndarray (fun x => astype dt (vmul (vsub x vmin) k)) img in
  Ok (map_ndarray (clip min_val max_val) img_rescale).

Definition crop_img (img : ndarray) (aspect_ratio : Z * Z) : result ndarray :=
  let (width, height) := aspect_ratio in
  (* float(aspect_ratio[1]) / float(aspect_ratio[0]) *)
  if (width =? 0)%Z then Raise ZeroDivisionError
  else
    let ratio := inject_Z height / inject_Z width in
    (* compute start and end pixels for height *)
    let old_height := inject_Z (Z.of_nat (nrows img)) in
    let new_height := old_height * ratio in
    let start := Py.round ((old_height - new_height) / 2) in
    let stop := Py.round (inject_Z start + new_height) in
    let img_crop := Py.slice start stop (data img) in
    Ok (mk_ndarray (length img_crop) (ncols img) (nchans img) img_crop).

(** ** animation.py *)

(** A four-dimensional stack (frames, rows, columns, channels). *)
Record stack : Type := mk_stack {
  num_frames : nat;
  num_rows : nat;
  num_columns : nat;
  num_channels : nat;
  frames : list ndarray
}.

Definition wf_stack (s : stack) : Prop :=
  length (frames s) = num_frames s /\
  Forall (fun f => wf_ndarray f /\ nrows f = num_rows s /\
                   ncols f = num_columns s /\ nchans f = num_channels s)
         (frames s).

Section Transform.

(** The colour map: a scalar goes to the list of its colour components;
    [ncolors] is the length of that list (4 for a Matplotlib colour map,
    which answers in RGBA). *)
Variable cmap : val -> list val.
Variable ncolors : nat.

(** [resize_img] hands the frame to the imaging library; [coregister] is
    the stack returned by [coregister_stack(img_stack)]. *)
Variable resize_img : ndarray -> Z * Z -> result ndarray.
Variable coregister : stack -> result stack.

(** [cmap(tmp_img.squeeze())[:, :, :-1]] on a frame of shape
    (rows, cols, 1).  [squeeze] removes every axis of length one, so a
    frame with a single row or column reaches the three-index slice with
    fewer than three axes. *)
Definition colorize (tmp_img : ndarray) : result ndarray :=
  match (nrows tmp_img =? 1)%nat, (ncols tmp_img =? 1)%nat with
  | true, true => Raise TypeError
  | true, false | false, true => Raise IndexError
  | false, false =>
      Ok (mk_ndarray (nrows tmp_img) (ncols tmp_img) (ncolors - 1)
            (map (map (fun px => Py.drop_last (cmap (hd NaN px))))
                 (data tmp_img)))
  end.

(** Whether the crop stage runs. *)
Definition crop_gate (img_stack : stack) (aspect_ratio : option (Z * Z))
  : result bool :=
  match aspect_ratio with
  | None => Ok false
  | Some (width, height) =>
      if (width =? 0)%Z then Raise ZeroDivisionError
      else if (num_columns img_stack =? 0)%nat then Raise ZeroDivisionError
      else
        let new_ratio := inject_Z height / inject_Z width in
        let old_ratio := inject_Z (Z.of_nat (num_rows img_stack))
                         / inject_Z (Z.of_nat (num_columns img_stack)) in
        Ok (negb (Qeq_bool old_ratio new_ratio))
  end.

(** Whether the resize stage runs. *)
Definition outsize_gate (img_stack : stack) (outsize : option (Z * Z))
  : bool :=
  match outsize with
  | None => false
  | Some (w, h) =>
      negb (w =? Z.of_nat (num_columns img_stack))%Z
      || negb (h =? Z.of_nat (num_rows img_stack))%Z
  end.

(** The crop and resize stages at the end of the frame loop. *)
Definition adjust_geometry (do_crop do_outsize : bool)
    (aspect_ratio outsize : option (Z * Z)) (tmp_img : ndarray)
  : result ndarray :=
  tmp_img <- (match do_crop, aspect_ratio with
              | true, Some ar => crop_img tmp_img ar
              | _, _ => Ok tmp_img
              end) ;;
  match do_outsize, outsize with
  | true, Some sz => resize_img tmp_img sz
  | _, _ => Ok tmp_img
  end.

(** The body of the frame loop. *)
Definition transform_frame (pmin pmax : Q) (do_crop do_outsize : bool)
    (aspect_ratio outsize : option (Z * Z)) (img : ndarray)
  : result ndarray :=
  (* convert to floating point, between 0->1 *)
  tmp_img <- rescale_img img 0 1 float32 pmin pmax ;;
  (* apply colormap if grayscale *)
  tmp_img <- (if (nchans img =? 1)%nat then colorize tmp_img
              else Ok tmp_img) ;;
  (* rescale back to 0->255, Byte *)
  tmp_img <- rescale_img tmp_img 0 255 uint8 0 100 ;;
  adjust_geometry do_crop do_outsize aspect_ratio outsize tmp_img.

Definition transform_scenes (img_stack : stack) (rescale : Q * Q)
    (aspect_ratio outsize : option (Z * Z)) (do_coregister : bool)
  : result (list ndarray) :=
  let (pmin, pmax) := rescale in
  (* coregister stack to first frame *)
  img_stack <- (if do_coregister then coregister img_stack
                else Ok img_stack) ;;
  do_crop <- crop_gate img_stack aspect_ratio ;;
  let do_outsize := outsize_gate img_stack outsize in
  mapM (transform_frame pmin pmax do_crop do_outsize aspect_ratio outsize)
       (frames img_stack).

End Transform.

(** ** coregister.py *)

(** [np.median] of a one-dimensional array of finite numbers: the middle
    order statistic, or the mean of the two middle ones; [nan] for an empty
    array. *)
Definition np_median (l : list Q) : val :=
  let s := sort Qle_bool l in
  let n := length s in
  match n with
  | O => NaN
  | _ =>
      if Nat.odd n then Fin (nth (n / 2) s 0)
      else Fin (Qred ((nth (n / 2 - 1) s 0 + nth (n / 2) s 0) / 2))
  end.

(** [np.median(shifts, axis=1)] on a (frames, channels, 2) array: one
    2-vector per frame. *)
Definition median_axis1 (shifts : list (list (Q * Q))) : list (val * val) :=
  map (fun per_channel =>
         (np_median (map fst per_channel), np_median (map snd per_channel)))
      shifts.

Module Coregister.

Section WithFourier.

(** A plane is the two-dimensional array [stack[frame, :, :, layer]].  The
    Fourier transforms, the phase-correlation registration and the
    Fourier-domain shift are the numerical libraries' and are taken as
    given. *)
Variable plane : Type.
Variable fft2 : plane -> plane.
Variable ifft2 : plane -> plane.
Variable real : plane -> plane.
Variable fourier_shift : plane -> val * val -> plane.
Variable register_translation : plane -> plane -> Z -> Q * Q.

(** The stack, by frame and channel, with the two extents that the
    functions read from [stack.shape]. *)
Record stack : Type := mk_stack {
  num_frames : nat;
  num_channels : nat;
  layers : list (list plane)
}.

Definition wf_stack (s : stack) : Prop :=
  length (layers s) = num_frames s /\
  Forall (fun f => length f = num_channels s) (layers s).

(** [arr[frame, :, :, layer]]. *)
Definition at_ (arr : list (list plane)) (frame layer : Z) : result plane :=
  f <- Py.index arr frame ;;
  Py.index f layer.

Definition range (n : nat) : list Z := map Z.of_nat (seq 0 n).

(** The double loop of [shift_stack] over frames and layers. *)
Definition shift_loop (fft_stack : list (list plane))
    (nframes nchannels : nat) (shifts : list (val * val))
  : result (list (list plane)) :=
  mapM (fun frame =>
          shift <- Py.index shifts frame ;;
          mapM (fun layer =>
                  p <- at_ fft_stack frame layer ;;
                  Ok (real (ifft2 (fourier_shift p shift))))
               (range nchannels))
       (range nframes).

Definition shift_stack (s : stack) (shifts : list (val * val))
    (space : string) : result stack :=
  (* compute FFT of all frames and bands, unless we already did that *)
  fft_stack <-
    (if String.eqb (Py.lower space) "real"
     then Ok (map (map fft2) (layers s))
     else if String.eqb (Py.lower space) "fourier"
     then Ok (layers s)
     else Raise ValueError) ;;
  shifted <- shift_loop fft_stack (num_frames s) (num_channels s) shifts ;;
  Ok (mk_stack (num_frames s) (num_channels s) shifted).

Inductive coregistered : Type :=
| Shifted (shifted_image : stack) (averaged_shifts : list (val * val))
| Measured (shifts : list (list (Q * Q))).

(** The (frames, channels, 2) array of measured shifts: the rows of the
    base frame keep the zeros they were created with. *)
Definition measure (fft_stack : list (list plane)) (nframes nchannels : nat)
    (base_frame upsample : Z) : result (list (list (Q * Q))) :=
  mapM (fun frame =>
          if (frame =? base_frame)%Z then Ok (repeat (0, 0) nchannels)
          else
            mapM (fun layer =>
                    b <- at_ fft_stack base_frame layer ;;
                    f <- at_ fft_stack frame layer ;;
                    Ok (register_translation b f upsample))
                 (range nchannels))
       (range nframes).

Definition coregister_stack (s : stack) (base_frame upsample : Z)
    (do_shift : bool) : result coregistered :=
  (* compute FFT of all frames and bands *)
  let fft_stack := map (map fft2) (layers s) in
  shifts <- measure fft_stack (num_frames s) (num_channels s)
                    base_frame upsample ;;
  if do_shift then
    (* average shifts by channel *)
    let averaged_shifts := median_axis1 shifts in
    (* since we already have the FFT, use it to implement shift *)
    shifted <- shift_stack
                 (mk_stack (num_frames s) (num_channels s) fft_stack)
                 averaged_shifts "fourier" ;;
    Ok (Shifted shifted averaged_shifts)
  else Ok (Measured shifts).

End WithFourier.

End Coregister.

(** * The vocabulary of the properties *)

(** How many entries of a list satisfy a test. *)
Definition count (p : Q -> bool) (l : list Q) : nat := length (filter p l).

(** The entry of rank [k] (from 0) of a list of numbers in increasing
    order, said without ordering the list: an entry with at most [k] entries
    strictly below it and more than [k] entries at or below it. *)
Definition order_statistic (l : list Q) (k : nat) (x : Q) : Prop :=
  In x l /\
  (count (fun y => negb (Qle_bool x y)) l <= k)%nat /\
  (k < count (fun y => Qle_bool y x) l)%nat.

(** The median of a list of numbers: the middle entry in increasing order,
    or the mean of the two middle entries when their number is even. *)
Definition is_median (l : list Q) (m : Q) : Prop :=
  exists a b,
    order_statistic l ((length l - 1) / 2) a /\
    order_statistic l (length l / 2) b /\
    m == (a + b) / 2.

(** A value inside a closed range; only a finite value is. *)
Definition within (lo hi : Q) (v : val) : Prop :=
  match v with
  | Fin q => lo <= q /\ q <= hi
  | _ => False
  end.

(** Every pixel value of the frame is finite. *)
Definition all_finite (img : ndarray) : Prop :=
  Forall (fun v => is_finite v = true) (ravel img).

(** The percentile range of the frame is not degenerate. *)
Definition percentile_range (img : ndarray) (pmin pmax : Q) : Prop :=
  forall vmin vmax,
    nanpercentile (ravel img) pmin = Ok vmin ->
    nanpercentile (ravel img) pmax = Ok vmax ->
    ~ vmax =v= vmin.

(** The pixel values of the frame span exactly the range. *)
Definition spans_exactly (img : ndarray) (lo hi : Q) : Prop :=
  Forall (within lo hi) (ravel img) /\
  Exists (fun v => v =v= Fin lo) (ravel img) /\
  Exists (fun v => v =v= Fin hi) (ravel img).

(** Frames of one shape with the same elements. *)
Definition same_frame (a b : ndarray) : Prop :=
  nrows a = nrows b /\ ncols a = ncols b /\ nchans a = nchans b /\
  Forall2 veq (ravel a) (ravel b).

(** The comparison [==] of two array elements; [nan] equals nothing. *)
Definition veqb (a b : val) : bool :=
  match a, b with
  | Fin x, Fin y => Qeq_bool x y
  | PInf, PInf | NInf, NInf => true
  | _, _ => false
  end.

(** The normaliser as the design document words it: the percentiles of the
    finite pixel values, the affine map onto [min_val, max_val], the clip,
    the cast; a degenerate percentile range gives [min_val] everywhere. *)
Definition normalizer_spec (img : ndarray) (min_val max_val : Q) (dt : dtype)
    (pmin pmax : Q) : result ndarray :=
  let finite := filter is_finite (ravel img) in
  vmin <- nanpercentile finite pmin ;;
  vmax <- nanpercentile finite pmax ;;
  if veqb vmax vmin
  then Ok (map_ndarray (fun _ => astype dt (Fin min_val)) img)
  else
    Ok (map_ndarray
          (fun x =>
             astype dt
               (clip min_val max_val
                  (vadd (vdiv (vmul (vsub x vmin) (Fin (max_val - min_val)))
                              (vsub vmax vmin))
                        (Fin min_val))))
          img).

(** The value that [nanpercentile] interpolates on finite data, as a
    rational. *)
Definition percentile_Q (qs : list Q) (p : Q) : Q :=
  let s := sort Qle_bool qs in
  let n := Z.of_nat (length s) in
  let virtual := (p / 100) * inject_Z (n - 1) in
  let previous := Qfloor virtual in
  let next := Z.min (previous + 1) (n - 1) in
  let gamma := virtual - inject_Z previous in
  nth (Z.to_nat previous) s 0
  + (nth (Z.to_nat next) s 0 - nth (Z.to_nat previous) s 0) * gamma.

(** [clip] on a finite value, as a rational. *)
Definition clip_Q (lo hi y : Q) : Q :=
  let z := if Qle_bool y lo then lo else y in
  if Qle_bool hi z then hi else z.

(** The crop as the design document words it: the new row count is the
    rounded product, and the first kept row is half of what is removed,
    rounded. *)
Definition spec_new_rows (old_rows : nat) (aspect_ratio : Z * Z) : Z :=
  let (width, height) := aspect_ratio in
  Py.round (inject_Z (Z.of_nat old_rows) * (inject_Z height / inject_Z width)).

Definition spec_start_row (old_rows : nat) (aspect_ratio : Z * Z) : Z :=
  Py.round ((inject_Z (Z.of_nat old_rows)
             - inject_Z (spec_new_rows old_rows aspect_ratio)) / 2).

(** * Frames and stacks used as examples *)

(** A single-channel frame from its rows of finite values. *)
Definition gray (rows : list (list Q)) (cols : nat) : ndarray :=
  mk_ndarray (length rows) cols 1 (map (map (fun q => [Fin q])) rows).

Definition frame_2x4 : ndarray := gray [[1; 2; 3; 4]; [5; 6; 7; 8]] 4.

Definition frame_3x1 : ndarray := gray [[1]; [2]; [3]] 1.

Definition frame_2x1 : ndarray := gray [[1]; [2]] 1.

(** A grey colour map with an opaque alpha component, and one without
    alpha. *)
Definition rgba (v : val) : list val := [v; v; v; Fin 1].

Definition rgb (v : val) : list val := [v; v; v].

Definition frame_2x2 : ndarray := gray [[0; 1]; [1; 0]] 2.

Definition planes_2x1 : Coregister.stack nat :=
  Coregister.mk_stack 2 1 [[10%nat]; [20%nat]].

Definition planes_1x1 : Coregister.stack nat :=
  Coregister.mk_stack 1 1 [[10%nat]].

(** Planes named by a number, with transforms that leave the name alone. *)
Definition keep (p : nat) : nat := p.

Definition move (p : nat) (shift : val * val) : nat := p.

Definition frame_0_2_4 : ndarray := gray [[0; 2; 4]] 3.

Definition frame_const_5 : ndarray := gray [[5; 5]; [5; 5]] 2.

Definition frame_const_7 : ndarray := gray [[7; 7; 7]] 3.

Definition frame_0_1_2 : ndarray := gray [[0; 1; 2]] 3.

Definition frame_1_2_3 : ndarray := gray [[1; 2; 3]] 3.

Definition planes_2x3 : Coregister.stack nat :=
  Coregister.mk_stack 2 3 [[0; 1; 2]; [10; 11; 12]]%nat.

(** A registration that measures (5, 5) on the third channel and (1, 1)
    on the others. *)
Definition register (b f : nat) (upsample : Z) : Q * Q :=
  if (f =? 12)%nat then (5, 5) else (1, 1).

(** * Properties *)

(** ** The error monad *)

Lemma mapM_length (A B : Type) (f : A -> result B) (l : list A) (r : list B) :
  mapM f l = Ok r -> length r = length l.
Proof.
  revert r; induction l as [|a l IH]; intros r; simpl.
  - intros [= <-]; reflexivity.
  - destruct (f a); simpl; [|discriminate].
    destruct (mapM f l); simpl; [|discriminate].
    intros [= <-]; simpl; f_equal; now apply IH.
Qed.

(** When every exception of the body is [e] and the body raises on some
    element, the loop raises [e]. *)
Lemma mapM_raise (A B : Type) (f : A -> result B) (e : exn) (l : list A) :
  (forall a e', In a l -> f a = Raise e' -> e' = e) ->
  (exists a e', In a l /\ f a = Raise e') ->
  mapM f l = Raise e.
Proof.
  induction l as [|a l IH]; intros Hall (x & e' & Hin & Hx).
  - destruct Hin.
  - simpl. destruct (f a) as [b|e0] eqn:Ea; simpl.
    + destruct Hin as [->|Hin]; [congruence|].
      rewrite IH; [reflexivity| |].
      * intros a0 e0 Hin0 Hf0; eapply Hall; [right; exact Hin0|exact Hf0].
      * now exists x, e'.
    + f_equal. eapply Hall; [left; reflexivity|exact Ea].
Qed.

Lemma mapM_only_raises (A B : Type) (f : A -> result B) (e : exn)
    (l : list A) (e' : exn) :
  (forall a e', In a l -> f a = Raise e' -> e' = e) ->
  mapM f l = Raise e' -> e' = e.
Proof.
  induction l as [|a l IH]; intros Hall; simpl; [discriminate|].
  destruct (f a) as [b|e0] eqn:Ea; simpl.
  - destruct (mapM f l) as [bs|e1]; simpl; [discriminate|].
    intros [= <-]. apply IH; [|reflexivity].
    intros a0 e0 Hin0 Hf0; eapply Hall; [right; exact Hin0|exact Hf0].
  - intros [= <-]. eapply Hall; [left; reflexivity|exact Ea].
Qed.

(** ** Python rounding and slicing *)

Lemma round_nearest (x : Q) :
  inject_Z (Py.round x) - x <= 1 # 2 /\ x - inject_Z (Py.round x) <= 1 # 2.
Proof.
  unfold Py.round.
  pose proof (Qfloor_le x) as Hlo.
  pose proof (Qlt_floor x) as Hhi.
  rewrite inject_Z_plus in Hhi.
  destruct (Qcompare_spec (x - inject_Z (Qfloor x)) (1 # 2)) as [E|E|E];
    [destruct (Z.even (Qfloor x))|..];
    rewrite ?inject_Z_plus; change (inject_Z 1) with 1 in *; lra.
Qed.

(** A slice is a contiguous segment of the sequence. *)
Lemma slice_segment (A : Type) (start stop : Z) (l : list A) :
  exists before after, l = before ++ Py.slice start stop l ++ after.
Proof.
  unfold Py.slice.
  set (n := Z.of_nat (length l)).
  set (lo := Z.to_nat (Py.clamp n start)).
  set (k := Z.to_nat (Py.clamp n stop - Py.clamp n start)).
  exists (firstn lo l), (skipn k (skipn lo l)).
  now rewrite firstn_skipn, firstn_skipn.
Qed.

Lemma slice_length_le (A : Type) (start stop : Z) (l : list A) :
  (length (Py.slice start stop l) <= length l)%nat.
Proof.
  destruct (slice_segment start stop l) as (b & a & E).
  rewrite E at 2. rewrite !length_app. lia.
Qed.

Lemma slice_in_range (A : Type) (start stop : Z) (l : list A) :
  (0 <= start <= stop)%Z -> (stop <= Z.of_nat (length l))%Z ->
  Py.slice start stop l
  = firstn (Z.to_nat (stop - start)) (skipn (Z.to_nat start) l)
  /\ length (Py.slice start stop l) = Z.to_nat (stop - start).
Proof.
  intros H1 H2. unfold Py.slice, Py.clamp.
  destruct (Z.ltb_spec start 0); [lia|].
  destruct (Z.ltb_spec stop 0); [lia|].
  rewrite !Z.min_l by lia. split; [reflexivity|].
  rewrite length_firstn, length_skipn. lia.
Qed.

Lemma Forall_slice (A : Type) (P : A -> Prop) (start stop : Z) (l : list A) :
  Forall P l -> Forall P (Py.slice start stop l).
Proof.
  intros H. destruct (slice_segment start stop l) as (b & a & E).
  rewrite E in H. apply Forall_app in H as [_ H].
  now apply Forall_app in H as [H _].
Qed.

(** ** The crop *)

(** C10.  For every well-formed frame and every aspect ratio with positive
    entries, also one that asks for more rows than the frame has, [crop_img]
    returns a frame with the column count and the channel count of its
    input and with at most as many rows; the rows it returns are a
    contiguous block of the input's rows, so nothing is padded. *)
Theorem crop_img_never_grows (img : ndarray) (width height : Z) :
  wf_ndarray img -> (0 < width)%Z -> (0 < height)%Z ->
  exists out,
    crop_img img (width, height) = Ok out /\
    wf_ndarray out /\
    ncols out = ncols img /\
    nchans out = nchans img /\
    (nrows out <= nrows img)%nat /\
    exists above below, data img = above ++ data out ++ below.
Proof.
  intros [Hlen Hrows] Hw Hh. unfold crop_img.
  destruct (Z.eqb_spec width 0) as [->|_]; [lia|].
  eexists; split; [reflexivity|]; cbn [nrows ncols nchans data].
  repeat split.
  - now apply Forall_slice.
  - rewrite <- Hlen. apply slice_length_le.
  - apply slice_segment.
Qed.

Lemma crop_img_never_grows_witness :
  exists out,
    crop_img (gray [[1; 2]; [3; 4]; [5; 6]; [7; 8]] 2) (1, 2)%Z = Ok out /\
    wf_ndarray out /\
    ncols out = 2%nat /\
    nchans out = 1%nat /\
    (nrows out <= 4)%nat /\
    exists above below,
      data (gray [[1; 2]; [3; 4]; [5; 6]; [7; 8]] 2)
      = above ++ data out ++ below.
Proof.
  apply (crop_img_never_grows (img := gray [[1; 2]; [3; 4]; [5; 6]; [7; 8]] 2)
           (width := 1) (height := 2)).
  - split; [reflexivity|]. cbn. repeat constructor.
  - reflexivity.
  - reflexivity.
Defined.

Lemma inject_Z_lt_succ (a b : Z) :
  inject_Z a < inject_Z b + 1 -> (a <= b)%Z.
Proof.
  intros H. apply Z.lt_succ_r. rewrite Zlt_Qlt.
  unfold Z.succ. rewrite inject_Z_plus. exact H.
Qed.

Lemma Qfloor_unique (x : Q) (n : Z) :
  inject_Z n <= x -> x < inject_Z n + 1 -> Qfloor x = n.
Proof.
  intros Hlo Hhi.
  pose proof (Qfloor_le x) as Flo.
  pose proof (Qlt_floor x) as Fhi.
  rewrite inject_Z_plus in Fhi. change (inject_Z 1) with 1 in Fhi.
  apply Z.le_antisymm; apply inject_Z_lt_succ; lra.
Qed.

Lemma Qfloor_shift (z : Z) (x : Q) :
  Qfloor (inject_Z z + x) = (z + Qfloor x)%Z.
Proof.
  pose proof (Qfloor_le x) as Flo.
  pose proof (Qlt_floor x) as Fhi.
  rewrite inject_Z_plus in Fhi. change (inject_Z 1) with 1 in Fhi.
  apply Qfloor_unique; rewrite inject_Z_plus; lra.
Qed.

(** Away from an exact half, rounding commutes with an integer shift. *)
Lemma round_shift (z : Z) (x : Q) :
  ~ x - inject_Z (Qfloor x) == 1 # 2 ->
  Py.round (inject_Z z + x) = (z + Py.round x)%Z.
Proof.
  intros Htie. unfold Py.round. rewrite Qfloor_shift.
  assert (E : inject_Z z + x - inject_Z (z + Qfloor x)
              == x - inject_Z (Qfloor x))
    by (rewrite inject_Z_plus; ring).
  destruct (Qcompare_spec (x - inject_Z (Qfloor x)) (1 # 2)) as [H|H|H];
    [contradiction|..];
    destruct (Qcompare_spec (inject_Z z + x - inject_Z (z + Qfloor x)) (1 # 2))
      as [H'|H'|H']; try lia; exfalso; lra.
Qed.

Lemma ratio_bounds (width height : Z) :
  (0 < height <= width)%Z ->
  0 < inject_Z height / inject_Z width /\
  inject_Z height / inject_Z width <= 1.
Proof.
  intros [Hh Hw].
  assert (0 < inject_Z height) by (rewrite <- (Zlt_Qlt 0); exact Hh).
  assert (inject_Z height <= inject_Z width) by (rewrite <- Zle_Qle; exact Hw).
  assert (0 < inject_Z width) by lra.
  split.
  - apply Qlt_shift_div_l; lra.
  - apply Qle_shift_div_r; lra.
Qed.

(** The bounds of the slice that [crop_img] takes, for a target ratio that
    does not ask for more rows than there are. *)
Lemma crop_bounds (old : Z) (r : Q) :
  (0 <= old)%Z -> 0 < r -> r <= 1 ->
  let new_height := inject_Z old * r in
  let start := Py.round ((inject_Z old - new_height) / 2) in
  let stop := Py.round (inject_Z start + new_height) in
  (0 <= start <= stop)%Z /\ (stop <= old)%Z.
Proof.
  intros Hold Hr0 Hr1 new_height start stop.
  assert (0 <= inject_Z old) by (rewrite <- (Zle_Qle 0); exact Hold).
  assert (Hn0 : 0 <= new_height) by (unfold new_height; nra).
  assert (Hn1 : new_height <= inject_Z old) by (unfold new_height; nra).
  destruct (round_nearest ((inject_Z old - new_height) / 2)) as [S1 S2].
  destruct (round_nearest (inject_Z start + new_height)) as [E1 E2].
  fold start in S1, S2. fold stop in E1, E2.
  assert (Hs2 : (inject_Z old - new_height) / 2
                == (inject_Z old - new_height) * (1 # 2)) by field.
  rewrite Hs2 in S1, S2.
  repeat split.
  - apply inject_Z_lt_succ. change (inject_Z 0) with 0. lra.
  - apply inject_Z_lt_succ. lra.
  - destruct (Qlt_le_dec new_height (inject_Z old)) as [Hlt|Hge].
    + apply inject_Z_lt_succ. lra.
    + assert (start = 0)%Z as Hst.
      { apply Z.le_antisymm; apply inject_Z_lt_succ;
          change (inject_Z 0) with 0; lra. }
      rewrite Hst in E1. change (inject_Z 0) with 0 in E1.
      apply inject_Z_lt_succ. lra.
Qed.




(** ** The colour map stage *)

Lemma drop_last_removelast (A : Type) (l : list A) :
  Py.drop_last l = removelast l.
Proof.
  unfold Py.drop_last, Py.slice, Py.clamp.
  rewrite removelast_firstn_len. cbn [Z.ltb Z.compare Z.to_nat skipn].
  destruct l as [|a l]; [reflexivity|].
  f_equal. cbn [length]. lia.
Qed.

(** C8, as amended.  On a well-formed single-channel frame with neither a
    single row nor a single column, the colour stage returns a frame of the
    same rows and columns whose pixels are the colour of the input scalar
    without its last component, whatever the number of components: a
    map with [ncolors] components gives [ncolors - 1] channels, hence
    exactly 3 channels for a four-component (RGBA) map. *)
Theorem colorize_drops_last_component (cmap : val -> list val) (ncolors : nat)
    (img : ndarray) :
  wf_ndarray img -> nchans img = 1%nat ->
  nrows img <> 1%nat -> ncols img <> 1%nat ->
  (forall v, length (cmap v) = ncolors) ->
  exists out,
    colorize cmap ncolors img = Ok out /\
    wf_ndarray out /\
    nrows out = nrows img /\ ncols out = ncols img /\
    nchans out = (ncolors - 1)%nat /\
    data out = map (map (fun px => removelast (cmap (hd NaN px)))) (data img) /\
    (ncolors = 4%nat -> nchans out = 3%nat).
Proof.
  intros [Hlen Hrows] Hch Hr Hc Hcm. unfold colorize.
  destruct (Nat.eqb_spec (nrows img) 1) as [|_]; [contradiction|].
  destruct (Nat.eqb_spec (ncols img) 1) as [|_]; [contradiction|].
  eexists; split; [reflexivity|]; unfold wf_ndarray;
    cbn [nrows ncols nchans data].
  repeat split.
  - now rewrite length_map.
  - apply Forall_map. eapply Forall_impl; [|exact Hrows].
    intros r [Hrl _]. split; [now rewrite length_map|].
    apply Forall_map, Forall_forall. intros px _.
    rewrite drop_last_removelast, removelast_firstn_len, length_firstn, Hcm.
    lia.
  - apply map_ext. intros r. apply map_ext. intros px.
    apply drop_last_removelast.
  - intros ->. reflexivity.
Qed.

Lemma colorize_drops_last_component_witness :
  exists out,
    colorize rgba 4 frame_2x2 = Ok out /\
    nchans out = 3%nat /\
    data out = map (map (fun px => removelast (rgba (hd NaN px))))
                   (data frame_2x2).
Proof.
  destruct (@colorize_drops_last_component rgba 4 frame_2x2)
    as (out & Ho & _ & _ & _ & _ & Hd & H3).
  - split; [reflexivity|cbn; repeat constructor].
  - reflexivity.
  - cbn. discriminate.
  - cbn. discriminate.
  - reflexivity.
  - exists out. split; [exact Ho|]. split; [apply H3; reflexivity|exact Hd].
Defined.

(** C8 fails as stated.  With a colour function of three components the
    colour stage returns two channels, not three. *)
Lemma colorize_three_components_counterexample :
  colorize rgb 3 frame_2x2
  = Ok (mk_ndarray 2 2 2
          [[[Fin 0; Fin 0]; [Fin 1; Fin 1]]; [[Fin 1; Fin 1]; [Fin 0; Fin 0]]])
  /\ nchans (mk_ndarray 2 2 2
          [[[Fin 0; Fin 0]; [Fin 1; Fin 1]]; [[Fin 1; Fin 1]; [Fin 0; Fin 0]]])
     <> 3%nat.
Proof.
  split; [reflexivity|cbn; discriminate].
Qed.

(** ** Indexed loops *)

Lemma index_nat (A : Type) (l : list A) (i : nat) :
  Py.index l (Z.of_nat i)
  = match nth_error l i with Some a => Ok a | None => Raise IndexError end.
Proof.
  unfold Py.index.
  assert (H0 : (Z.of_nat i <? 0)%Z = false) by (apply Z.ltb_ge; lia).
  rewrite !H0, Nat2Z.id. cbn [orb].
  destruct (Z.leb_spec (Z.of_nat (length l)) (Z.of_nat i)) as [Hge|_];
    [|reflexivity].
  destruct (nth_error l i) eqn:E; [|reflexivity].
  assert (i < length l)%nat by (apply nth_error_Some; congruence). lia.
Qed.

Lemma index_only_IndexError (A : Type) (l : list A) (i : Z) (e : exn) :
  Py.index l i = Raise e -> e = IndexError.
Proof.
  unfold Py.index. destruct (_ || _)%bool; [congruence|].
  destruct (nth_error _ _); congruence.
Qed.

Lemma in_range (n : nat) (i : Z) :
  In i (Coregister.range n) <-> exists k, (k < n)%nat /\ i = Z.of_nat k.
Proof.
  unfold Coregister.range. rewrite in_map_iff. split.
  - intros (k & <- & Hk). apply in_seq in Hk. exists k. split; [lia|reflexivity].
  - intros (k & Hk & ->). exists k. split; [reflexivity|apply in_seq; lia].
Qed.

Lemma mapM_ext (A B : Type) (f g : A -> result B) (l : list A) :
  (forall a, In a l -> f a = g a) -> mapM f l = mapM g l.
Proof.
  induction l as [|a l IH]; intros H; simpl; [reflexivity|].
  rewrite (H a (or_introl eq_refl)), IH; [reflexivity|].
  intros; apply H; now right.
Qed.

Lemma mapM_succeeds (A B : Type) (f : A -> result B) (l : list A) :
  (forall a, In a l -> exists b, f a = Ok b) -> exists r, mapM f l = Ok r.
Proof.
  induction l as [|a l IH]; intros H; simpl; [now eexists|].
  destruct (H a (or_introl eq_refl)) as [b ->].
  destruct IH as [r ->]; [intros; apply H; now right|].
  simpl. now eexists.
Qed.

(** ** The Fourier shifter *)

Section ShiftLoop.

Variable plane : Type.
Variables ifft2 real : plane -> plane.
Variable fourier_shift : plane -> val * val -> plane.
Variable fft_stack : list (list plane).
Variables nframes nchannels : nat.
Hypothesis Hframes : length fft_stack = nframes.
Hypothesis Hchannels : Forall (fun f => length f = nchannels) fft_stack.

Let shift_loop :=
  Coregister.shift_loop ifft2 real fourier_shift fft_stack nframes nchannels.

Lemma at_in_bounds (k j : nat) :
  (k < nframes)%nat -> (j < nchannels)%nat ->
  exists p, Coregister.at_ fft_stack (Z.of_nat k) (Z.of_nat j) = Ok p.
Proof using Hframes Hchannels.
  intros Hk Hj. unfold Coregister.at_. rewrite index_nat.
  destruct (nth_error fft_stack k) as [f|] eqn:Ef.
  - simpl. rewrite index_nat.
    assert (length f = nchannels) as Hf.
    { rewrite Forall_forall in Hchannels.
      apply Hchannels. eapply nth_error_In; eassumption. }
    destruct (nth_error f j) as [p|] eqn:Ep; [now exists p|].
    apply nth_error_None in Ep. lia.
  - apply nth_error_None in Ef. lia.
Qed.

Lemma shift_frame_only_IndexError (shifts : list (val * val)) (frame : Z)
    (e : exn) :
  (shift <- Py.index shifts frame ;;
   mapM (fun layer =>
           p <- Coregister.at_ fft_stack frame layer ;;
           Ok (real (ifft2 (fourier_shift p shift))))
        (Coregister.range nchannels)) = Raise e ->
  e = IndexError.
Proof.
  destruct (Py.index shifts frame) as [sh|e0] eqn:Es; simpl.
  - apply mapM_only_raises. intros layer e' _.
    unfold Coregister.at_.
    destruct (Py.index fft_stack frame) as [f|e1] eqn:Ef; simpl.
    + destruct (Py.index f layer) as [p|e2] eqn:Ep; simpl; [discriminate|].
      intros [= <-]. eapply index_only_IndexError; eassumption.
    + intros [= <-]. eapply index_only_IndexError; eassumption.
  - intros [= <-]. eapply index_only_IndexError; eassumption.
Qed.

Lemma shift_loop_short (shifts : list (val * val)) :
  (length shifts < nframes)%nat -> shift_loop shifts = Raise IndexError.
Proof.
  intros Hshort. unfold shift_loop, Coregister.shift_loop.
  apply mapM_raise.
  - intros frame e _. apply shift_frame_only_IndexError.
  - exists (Z.of_nat (length shifts)), IndexError. split.
    + apply in_range. eauto.
    + rewrite index_nat.
      replace (nth_error shifts (length shifts)) with (@None (val * val))
        by (symmetry; apply nth_error_None; lia).
      reflexivity.
Qed.

Lemma shift_loop_long (shifts : list (val * val)) :
  (nframes <= length shifts)%nat ->
  (exists r, shift_loop shifts = Ok r /\ length r = nframes) /\
  shift_loop shifts = shift_loop (firstn nframes shifts).
Proof using Hframes Hchannels.
  intros Hlong. split.
  - destruct (@mapM_succeeds _ _
      (fun frame =>
         shift <- Py.index shifts frame ;;
         mapM (fun layer =>
                 p <- Coregister.at_ fft_stack frame layer ;;
                 Ok (real (ifft2 (fourier_shift p shift))))
              (Coregister.range nchannels))
      (Coregister.range nframes)) as [r Hr].
    + intros frame Hin. apply in_range in Hin as (k & Hk & ->).
      rewrite index_nat.
      destruct (nth_error shifts k) as [sh|] eqn:Es;
        [|apply nth_error_None in Es; lia].
      simpl. apply mapM_succeeds.
      intros layer Hin. apply in_range in Hin as (j & Hj & ->).
      destruct (at_in_bounds Hk Hj) as [p ->]. simpl. now eexists.
    + exists r. split; [exact Hr|].
      apply mapM_length in Hr. rewrite Hr.
      unfold Coregister.range. now rewrite length_map, length_seq.
  - apply mapM_ext. intros frame Hin.
    apply in_range in Hin as (k & Hk & ->).
    rewrite !index_nat, nth_error_firstn.
    apply Nat.ltb_lt in Hk. now rewrite Hk.
Qed.

End ShiftLoop.

(** C9, as amended.  With [space] naming one of the two accepted spaces,
    [shift_stack] on a well-formed stack raises [IndexError] (there is no
    [ShiftError]) when the shift array has fewer entries than the stack has
    frames; with as many entries or more it returns a stack of the same
    extents, and the entries past the frame count are not read. *)
Theorem shift_stack_shift_count (plane : Type) (fft2 ifft2 real : plane -> plane)
    (fourier_shift : plane -> val * val -> plane)
    (s : Coregister.stack plane) (shifts : list (val * val)) (space : string) :
  Coregister.wf_stack s ->
  Py.lower space = "real"%string \/ Py.lower space = "fourier"%string ->
  ((length shifts < Coregister.num_frames s)%nat ->
   Coregister.shift_stack fft2 ifft2 real fourier_shift s shifts space
   = Raise IndexError) /\
  ((Coregister.num_frames s <= length shifts)%nat ->
   (exists out,
      Coregister.shift_stack fft2 ifft2 real fourier_shift s shifts space
      = Ok out /\
      Coregister.num_frames out = Coregister.num_frames s /\
      Coregister.num_channels out = Coregister.num_channels s /\
      length (Coregister.layers out) = Coregister.num_frames s) /\
   Coregister.shift_stack fft2 ifft2 real fourier_shift s shifts space
   = Coregister.shift_stack fft2 ifft2 real fourier_shift s
       (firstn (Coregister.num_frames s) shifts) space).
Proof.
  intros [Hlen Hch] Hspace.
  set (fft_stack :=
         if String.eqb (Py.lower space) "real"
         then map (map fft2) (Coregister.layers s) else Coregister.layers s).
  assert (Hfft : forall sh,
    Coregister.shift_stack fft2 ifft2 real fourier_shift s sh space
    = (shifted <- Coregister.shift_loop ifft2 real fourier_shift
                    fft_stack (Coregister.num_frames s)
                    (Coregister.num_channels s) sh ;;
       Ok (Coregister.mk_stack (Coregister.num_frames s)
             (Coregister.num_channels s) shifted))).
  { intros sh. unfold Coregister.shift_stack, fft_stack.
    destruct Hspace as [-> | ->]; reflexivity. }
  assert (Hlen' : length fft_stack = Coregister.num_frames s).
  { unfold fft_stack. destruct (String.eqb _ _); [|assumption].
    now rewrite length_map. }
  assert (Hch' : Forall (fun f => length f = Coregister.num_channels s)
                        fft_stack).
  { unfold fft_stack. destruct (String.eqb _ _); [|assumption].
    apply Forall_map. eapply Forall_impl; [|exact Hch].
    intros f Hf. now rewrite length_map. }
  split.
  - intros Hshort. rewrite Hfft, shift_loop_short by assumption. reflexivity.
  - intros Hlong.
    destruct (shift_loop_long ifft2 real fourier_shift
                Hlen' Hch' shifts Hlong) as [(r & Hr & Hrl) Heq].
    split.
    + exists (Coregister.mk_stack (Coregister.num_frames s)
                (Coregister.num_channels s) r).
      rewrite Hfft, Hr. repeat split. exact Hrl.
    + rewrite !Hfft, Heq. reflexivity.
Qed.

Lemma shift_stack_shift_count_witness :
  Coregister.shift_stack keep keep keep move planes_2x1 [(Fin 0, Fin 0)]
    "fourier"
  = Raise IndexError /\
  Coregister.shift_stack keep keep keep move planes_1x1
    [(Fin 0, Fin 0); (Fin 1, Fin 1)] "Fourier"
  = Coregister.shift_stack keep keep keep move planes_1x1
      [(Fin 0, Fin 0)] "Fourier".
Proof.
  assert (Hwf2 : Coregister.wf_stack planes_2x1)
    by (split; [reflexivity|repeat constructor]).
  assert (Hwf1 : Coregister.wf_stack planes_1x1)
    by (split; [reflexivity|repeat constructor]).
  split.
  - destruct (@shift_stack_shift_count nat keep keep keep move planes_2x1
                [(Fin 0, Fin 0)] "fourier" Hwf2 (or_intror eq_refl))
      as [Hshort _].
    apply Hshort. cbn. lia.
  - destruct (@shift_stack_shift_count nat keep keep keep move planes_1x1
                [(Fin 0, Fin 0); (Fin 1, Fin 1)] "Fourier" Hwf1
                (or_intror eq_refl))
      as [_ Hlong].
    apply Hlong. cbn. lia.
Defined.

(** C9 fails as stated.  A shift array longer than the stack is accepted:
    with one frame and two shifts, [shift_stack] returns a stack. *)
Lemma shift_stack_longer_shifts_counterexample :
  length [(Fin 0, Fin 0); (Fin 1, Fin 1)] <> Coregister.num_frames planes_1x1
  /\
  Coregister.shift_stack keep keep keep move planes_1x1
    [(Fin 0, Fin 0); (Fin 1, Fin 1)] "fourier"
  = Ok planes_1x1.
Proof.
  split; [cbn; lia|reflexivity].
Qed.

(** ** Sorting *)

Section SortingFacts.

Variable A : Type.
Variable leb : A -> A -> bool.
Hypothesis leb_total : forall x y, leb x y = true \/ leb y x = true.
Hypothesis leb_trans :
  forall x y z, leb x y = true -> leb y z = true -> leb x z = true.

Let le (x y : A) : Prop := leb x y = true.

Lemma insert_perm (x : A) (l : list A) : Permutation (insert leb x l) (x :: l).
Proof.
  induction l as [|y l IH]; simpl; [reflexivity|].
  destruct (leb x y); [reflexivity|].
  rewrite IH. apply perm_swap.
Qed.

Lemma sort_perm (l : list A) : Permutation (sort leb l) l.
Proof.
  induction l as [|x l IH]; simpl; [reflexivity|].
  rewrite insert_perm. now constructor.
Qed.

Lemma insert_sorted (x : A) (l : list A) :
  StronglySorted le l -> StronglySorted le (insert leb x l).
Proof using leb_total leb_trans.
  induction 1 as [|y l Hs IH Hy]; simpl.
  - repeat constructor.
  - destruct (leb x y) eqn:E.
    + constructor; [now constructor|].
      constructor; [exact E|].
      eapply Forall_impl; [|exact Hy]. intros z Hz. eapply leb_trans; eassumption.
    + constructor; [exact IH|].
      assert (Hyx : le y x) by (destruct (leb_total x y); congruence).
      eapply Permutation_Forall; [symmetry; apply insert_perm|].
      now constructor.
Qed.

Lemma sort_sorted (l : list A) : StronglySorted le (sort leb l).
Proof using leb_total leb_trans.
  induction l; simpl; [constructor|now apply insert_sorted].
Qed.

(** In a sorted list, what stands before a position is below the element
    there, and what stands after is above it. *)
Lemma sorted_split (a b : list A) (x : A) :
  StronglySorted le (a ++ x :: b) ->
  Forall (fun y => le y x) a /\ Forall (le x) b.
Proof.
  induction a as [|y a IH]; simpl; intros H; inversion H; subst.
  - split; [constructor|assumption].
  - destruct (IH H2) as [Ha Hb]. split; [|assumption].
    constructor; [|assumption].
    match goal with F : Forall _ (a ++ x :: b) |- _ =>
      apply Forall_app in F as [_ F]; now inversion F end.
Qed.

Lemma sorted_nth_le (s : list A) (d : A) :
  StronglySorted le s ->
  forall i j, (i <= j)%nat -> (j < length s)%nat ->
              le (nth i s d) (nth j s d).
Proof using leb_total.
  induction 1 as [|x l Hs IH Hx]; intros i j Hij Hj; simpl in Hj; [lia|].
  destruct i as [|i], j as [|j]; simpl; try lia.
  - unfold le. destruct (leb_total x x); assumption.
  - rewrite Forall_forall in Hx. apply Hx, nth_In. lia.
  - apply IH; lia.
Qed.

End SortingFacts.

Lemma Qle_bool_total (x y : Q) : Qle_bool x y = true \/ Qle_bool y x = true.
Proof.
  rewrite !Qle_bool_iff. destruct (Qlt_le_dec x y); [left|right]; lra.
Qed.

Lemma Qle_bool_trans (x y z : Q) :
  Qle_bool x y = true -> Qle_bool y z = true -> Qle_bool x z = true.
Proof. rewrite !Qle_bool_iff. lra. Qed.

(** ** The median *)

Lemma count_perm (p : Q -> bool) (l l' : list Q) :
  Permutation l l' -> count p l = count p l'.
Proof.
  unfold count. induction 1; simpl; try congruence.
  - destruct (p x); simpl; congruence.
  - destruct (p x), (p y); reflexivity.
Qed.

Lemma count_app (p : Q -> bool) (l l' : list Q) :
  count p (l ++ l') = (count p l + count p l')%nat.
Proof. unfold count. now rewrite filter_app, length_app. Qed.

Lemma count_all (p : Q -> bool) (l : list Q) :
  Forall (fun x => p x = true) l -> count p l = length l.
Proof.
  unfold count. induction 1 as [|x l Hx _ IH]; simpl; [reflexivity|].
  rewrite Hx. simpl. now rewrite IH.
Qed.

Lemma count_le_length (p : Q -> bool) (l : list Q) :
  (count p l <= length l)%nat.
Proof. unfold count. apply filter_length_le. Qed.

Lemma count_none (p : Q -> bool) (l : list Q) :
  Forall (fun x => p x = false) l -> count p l = 0%nat.
Proof.
  unfold count. induction 1 as [|x l Hx _ IH]; simpl; [reflexivity|].
  now rewrite Hx.
Qed.

(** The element at position [k] of a sorted list has rank [k]. *)
Lemma sorted_rank (s : list Q) (k : nat) :
  StronglySorted (fun x y => Qle_bool x y = true) s ->
  (k < length s)%nat ->
  order_statistic s k (nth k s 0).
Proof.
  intros Hs Hk. split; [now apply nth_In|].
  destruct (nth_split s 0 Hk) as (l1 & l2 & E & Hl1).
  remember (nth k s 0) as x eqn:Ex. clear Ex. subst s.
  assert (Hxx : Qle_bool x x = true) by (apply Qle_bool_iff; lra).
  apply sorted_split in Hs as [H1 H2].
  change (l1 ++ x :: l2) with (l1 ++ [x] ++ l2).
  rewrite !count_app.
  rewrite (@count_all (fun y => Qle_bool y x) l1 H1).
  rewrite (@count_none (fun y => negb (Qle_bool x y)) l2)
    by (eapply Forall_impl; [|exact H2]; intros y Hy; cbv beta;
        now rewrite Hy).
  assert (C1 : count (fun y => Qle_bool y x) [x] = 1%nat)
    by (unfold count; simpl; rewrite Hxx; reflexivity).
  assert (C2 : count (fun y => negb (Qle_bool x y)) [x] = 0%nat)
    by (unfold count; simpl; rewrite Hxx; reflexivity).
  rewrite C1, C2.
  pose proof (count_le_length (fun y => negb (Qle_bool x y)) l1). lia.
Qed.

Lemma order_statistic_perm (s l : list Q) (k : nat) (x : Q) :
  Permutation s l -> order_statistic s k x -> order_statistic l k x.
Proof.
  intros Hp (Hin & Hlt & Hle). unfold order_statistic.
  rewrite <- !(count_perm _ Hp). repeat split; try assumption.
  eapply Permutation_in; eassumption.
Qed.

Lemma np_median_is_median (l : list Q) :
  l <> [] -> exists m, np_median l = Fin m /\ is_median l m.
Proof.
  intros Hne. unfold np_median.
  pose proof (sort_perm Qle_bool l) as Hp.
  pose proof (@sort_sorted _ _ Qle_bool_total Qle_bool_trans l) as Hs.
  set (s := sort Qle_bool l) in *.
  assert (Hn : length s = length l) by now apply Permutation_length.
  destruct (length s) as [|n'] eqn:En.
  { destruct l; [contradiction|discriminate]. }
  unfold is_median. rewrite <- Hn.
  destruct (Nat.odd (S n')) eqn:Eo.
  - eexists; split; [reflexivity|].
    apply Nat.odd_spec in Eo as [k Ek].
    assert (Hk : (S n' / 2 = k)%nat).
    { rewrite Ek. symmetry. apply (Nat.div_unique _ 2 k 1); lia. }
    assert (Hk' : ((S n' - 1) / 2 = k)%nat).
    { rewrite Ek. symmetry. apply (Nat.div_unique _ 2 k 0); lia. }
    rewrite Hk, Hk'.
    assert (Hr : order_statistic l k (nth k s 0))
      by (apply (order_statistic_perm Hp), sorted_rank; [assumption|lia]).
    exists (nth k s 0), (nth k s 0). split; [exact Hr|].
    split; [exact Hr|]. field.
  - assert (Ev : Nat.even (S n') = true)
      by (rewrite <- Nat.negb_odd, Eo; reflexivity).
    apply Nat.even_spec in Ev as [k Ek].
    assert (Hk : (S n' / 2 = k)%nat).
    { rewrite Ek. symmetry. apply (Nat.div_unique _ 2 k 0); lia. }
    assert (Hk' : ((S n' - 1) / 2 = k - 1)%nat).
    { rewrite Ek. symmetry. apply (Nat.div_unique _ 2 (k - 1) 1); lia. }
    rewrite Hk, Hk'.
    eexists; split; [reflexivity|].
    exists (nth (k - 1) s 0), (nth k s 0). split; [|split].
    + apply (order_statistic_perm Hp), sorted_rank; [assumption|lia].
    + apply (order_statistic_perm Hp), sorted_rank; [assumption|lia].
    + apply Qred_correct.
Qed.

Lemma mapM_nth_error (A B : Type) (f : A -> result B) (l : list A)
    (r : list B) :
  mapM f l = Ok r ->
  forall i b, nth_error r i = Some b ->
              exists a, nth_error l i = Some a /\ f a = Ok b.
Proof.
  revert r; induction l as [|a l IH]; intros r; simpl.
  - intros [= <-] [|i] b; discriminate.
  - destruct (f a) as [b0|] eqn:Ea; simpl; [|discriminate].
    destruct (mapM f l) as [bs|]; simpl; [|discriminate].
    intros [= <-] [|i] b; simpl.
    + intros [= <-]. now exists a.
    + now apply IH.
Qed.

Lemma range_nth_error (n i : nat) (z : Z) :
  nth_error (Coregister.range n) i = Some z -> (i < n)%nat /\ z = Z.of_nat i.
Proof.
  unfold Coregister.range. rewrite nth_error_map, nth_error_seq.
  destruct (Nat.ltb_spec i n); simpl; [|discriminate].
  intros [= <-]. split; [assumption|reflexivity].
Qed.

Lemma sort_zeros (n : nat) : sort Qle_bool (repeat 0 n) = repeat 0 n.
Proof.
  induction n as [|n IH]; simpl; [reflexivity|].
  rewrite IH. destruct n; reflexivity.
Qed.

Lemma np_median_zeros (n : nat) : (1 <= n)%nat -> np_median (repeat 0 n) = Fin 0.
Proof.
  intros Hn. unfold np_median. rewrite sort_zeros, repeat_length.
  destruct n as [|n]; [lia|].
  rewrite !nth_repeat. destruct (Nat.odd (S n)); reflexivity.
Qed.

(** ** The shift aggregator *)

Section Aggregator.

Variable plane : Type.
Variables fft2 ifft2 real : plane -> plane.
Variable fourier_shift : plane -> val * val -> plane.
Variable register_translation : plane -> plane -> Z -> Q * Q.
Variable s : Coregister.stack plane.
Variables base_frame upsample : Z.
Hypothesis Hwf : Coregister.wf_stack s.
Hypothesis Hbase : (0 <= base_frame < Z.of_nat (Coregister.num_frames s))%Z.

Let fft_stack := map (map fft2) (Coregister.layers s).

Lemma fft_stack_frames : length fft_stack = Coregister.num_frames s.
Proof using Hwf. unfold fft_stack. rewrite length_map. apply Hwf. Qed.

Lemma fft_stack_channels :
  Forall (fun f => length f = Coregister.num_channels s) fft_stack.
Proof using Hwf.
  unfold fft_stack. apply Forall_map.
  eapply Forall_impl; [|apply Hwf]. intros f Hf. now rewrite length_map.
Qed.

Lemma measure_succeeds :
  exists shifts,
    Coregister.measure register_translation fft_stack
      (Coregister.num_frames s) (Coregister.num_channels s)
      base_frame upsample = Ok shifts.
Proof using Hwf Hbase.
  apply mapM_succeeds. intros frame Hin.
  apply in_range in Hin as (k & Hk & ->).
  destruct (Z.of_nat k =? base_frame)%Z; [now eexists|].
  apply mapM_succeeds. intros layer Hin.
  apply in_range in Hin as (j & Hj & ->).
  destruct (at_in_bounds fft_stack_frames fft_stack_channels
              (k := Z.to_nat base_frame) (j := j)) as [b Hb]; [lia|lia|].
  rewrite Z2Nat.id in Hb by lia. rewrite Hb.
  destruct (at_in_bounds fft_stack_frames fft_stack_channels Hk Hj)
    as [f ->].
  simpl. now eexists.
Qed.

Lemma measure_rows (shifts : list (list (Q * Q))) :
  Coregister.measure register_translation fft_stack
    (Coregister.num_frames s) (Coregister.num_channels s)
    base_frame upsample = Ok shifts ->
  length shifts = Coregister.num_frames s /\
  Forall (fun o => length o = Coregister.num_channels s) shifts /\
  nth_error shifts (Z.to_nat base_frame)
  = Some (repeat (0, 0) (Coregister.num_channels s)).
Proof using Hbase.
  intros Hm. pose proof (mapM_length _ _ Hm) as Hlen.
  unfold Coregister.range in Hlen. rewrite length_map, length_seq in Hlen.
  split; [exact Hlen|]. split.
  - apply Forall_forall. intros o Ho.
    apply In_nth_error in Ho as [i Hi].
    destruct (mapM_nth_error _ _ Hm _ Hi) as (frame & _ & Hf).
    destruct (frame =? base_frame)%Z.
    + injection Hf as <-. apply repeat_length.
    + apply mapM_length in Hf. rewrite Hf.
      unfold Coregister.range. now rewrite length_map, length_seq.
  - destruct (nth_error shifts (Z.to_nat base_frame)) as [o|] eqn:Eo.
    + destruct (mapM_nth_error _ _ Hm _ Eo) as (frame & Hr & Hf).
      apply range_nth_error in Hr as [_ ->].
      rewrite Z2Nat.id, Z.eqb_refl in Hf by lia. congruence.
    + apply nth_error_None in Eo. lia.
Qed.

End Aggregator.

(** C1.  On a well-formed stack with at least one channel and a reference
    index that names one of its frames, [coregister_stack] measures one
    offset per frame and channel and returns one aggregated shift per
    frame, whose two components are the medians of the frame's per-channel
    row offsets and column offsets (the middle offset in increasing order,
    or the mean of the two middle ones); the reference frame's aggregated
    shift is (0, 0); and the channel offsets (1,1), (1,1), (5,5) aggregate
    to (1, 1). *)
Theorem coregister_stack_median_shift (plane : Type)
    (fft2 ifft2 real : plane -> plane)
    (fourier_shift : plane -> val * val -> plane)
    (register_translation : plane -> plane -> Z -> Q * Q)
    (s : Coregister.stack plane) (base_frame upsample : Z) :
  Coregister.wf_stack s ->
  (0 <= base_frame < Z.of_nat (Coregister.num_frames s))%Z ->
  (1 <= Coregister.num_channels s)%nat ->
  exists shifts shifted averaged,
    Coregister.coregister_stack fft2 ifft2 real fourier_shift
      register_translation s base_frame upsample false
    = Ok (Coregister.Measured plane shifts) /\
    Coregister.coregister_stack fft2 ifft2 real fourier_shift
      register_translation s base_frame upsample true
    = Ok (Coregister.Shifted shifted averaged) /\
    length shifts = Coregister.num_frames s /\
    length averaged = Coregister.num_frames s /\
    (forall frame offsets,
       nth_error shifts frame = Some offsets ->
       exists mr mc,
         nth_error averaged frame = Some (Fin mr, Fin mc) /\
         is_median (map fst offsets) mr /\
         is_median (map snd offsets) mc) /\
    nth_error averaged (Z.to_nat base_frame) = Some (Fin 0, Fin 0) /\
    median_axis1 [[(1, 1); (1, 1); (5, 5)]] = [(Fin 1, Fin 1)].
Proof.
  intros Hwf Hbase Hch.
  destruct (measure_succeeds fft2 register_translation upsample Hwf Hbase)
    as [shifts Hm].
  destruct (measure_rows fft2 register_translation s upsample Hbase Hm)
    as (Hlen & Hrows & Hzero).
  assert (Hav : length (median_axis1 shifts) = Coregister.num_frames s)
    by (unfold median_axis1; now rewrite length_map).
  destruct (shift_loop_long ifft2 real fourier_shift
              (fft_stack_frames fft2 Hwf) (fft_stack_channels fft2 Hwf)
              (median_axis1 shifts)) as [(r & Hr & _) _]; [lia|].
  exists shifts,
    (Coregister.mk_stack (Coregister.num_frames s)
       (Coregister.num_channels s) r),
    (median_axis1 shifts).
  unfold Coregister.coregister_stack. rewrite Hm. cbn [bind].
  split; [reflexivity|]. split.
  { unfold Coregister.shift_stack.
    cbn [Coregister.layers Coregister.num_frames Coregister.num_channels].
    change (String.eqb (Py.lower "fourier") "real") with false.
    change (String.eqb (Py.lower "fourier") "fourier") with true.
    cbn [bind]. rewrite Hr. reflexivity. }
  split; [exact Hlen|]. split; [exact Hav|]. split; [|split].
  - intros frame offsets Ho.
    assert (Hne : offsets <> []).
    { rewrite Forall_forall in Hrows.
      pose proof (Hrows _ (nth_error_In _ _ Ho)) as Hl.
      intros ->. simpl in Hl. lia. }
    destruct (@np_median_is_median (map fst offsets)) as (mr & Er & Hmr).
    { destruct offsets; [contradiction|discriminate]. }
    destruct (@np_median_is_median (map snd offsets)) as (mc & Ec & Hmc).
    { destruct offsets; [contradiction|discriminate]. }
    exists mr, mc. split; [|split; assumption].
    unfold median_axis1. rewrite nth_error_map, Ho. simpl. now rewrite Er, Ec.
  - unfold median_axis1. rewrite nth_error_map, Hzero. simpl.
    rewrite !map_repeat. simpl. now rewrite np_median_zeros.
  - reflexivity.
Qed.

(** ** Percentiles of finite data *)

Lemma insert_map_Fin (x : Q) (l : list Q) :
  insert vleb (Fin x) (map Fin l) = map Fin (insert Qle_bool x l).
Proof.
  induction l as [|y l IH]; simpl; [reflexivity|].
  destruct (Qle_bool x y); simpl; [reflexivity|now rewrite IH].
Qed.

Lemma sort_map_Fin (l : list Q) :
  sort vleb (map Fin l) = map Fin (sort Qle_bool l).
Proof.
  induction l as [|x l IH]; simpl; [reflexivity|].
  now rewrite IH, insert_map_Fin.
Qed.

Lemma filter_nan_Fin (l : list Q) :
  filter (fun v => negb (is_nan v)) (map Fin l) = map Fin l.
Proof. induction l; simpl; congruence. Qed.

Lemma nth_map_Fin (l : list Q) (i : nat) :
  (i < length l)%nat -> nth i (map Fin l) NaN = Fin (nth i l 0).
Proof.
  intros Hi. rewrite (nth_indep _ NaN (Fin 0)) by now rewrite length_map.
  apply (map_nth Fin).
Qed.

Lemma lerp_fin (a b t : Q) :
  exists q, lerp (Fin a) (Fin b) t = Fin q /\ q == a + (b - a) * t.
Proof.
  unfold lerp. destruct (Qle_bool (1 # 2) t);
    cbn [vsub vadd vmul vopp];
    (eexists; split; [reflexivity|]); rewrite !Qred_correct; ring.
Qed.

Lemma virtual_index_bounds (p : Q) (n : Z) :
  0 <= p -> p <= 100 -> (1 <= n)%Z ->
  let virtual := (p / 100) * inject_Z (n - 1) in
  0 <= virtual /\ virtual <= inject_Z (n - 1) /\
  (0 <= Qfloor virtual <= n - 1)%Z.
Proof.
  intros Hp0 Hp1 Hn virtual.
  assert (Hn0 : 0 <= inject_Z (n - 1))
    by (rewrite <- (Zle_Qle 0); lia).
  assert (Hp : p / 100 == p * (1 # 100)) by field.
  assert (H0 : 0 <= virtual) by (unfold virtual; rewrite Hp; nra).
  assert (H1 : virtual <= inject_Z (n - 1))
    by (unfold virtual; rewrite Hp; nra).
  repeat split; try assumption.
  - change 0%Z with (Qfloor 0). now apply Qfloor_resp_le.
  - rewrite <- (Qfloor_Z (n - 1)). now apply Qfloor_resp_le.
Qed.

Lemma sort_length (l : list Q) : length (sort Qle_bool l) = length l.
Proof. apply Permutation_length, sort_perm. Qed.

Lemma nanpercentile_finite (qs : list Q) (p : Q) :
  qs <> [] -> 0 <= p -> p <= 100 ->
  exists v, nanpercentile (map Fin qs) p = Ok (Fin v) /\
            v == percentile_Q qs p.
Proof.
  intros Hne Hp0 Hp1. unfold nanpercentile, percentile_Q.
  apply Qle_bool_iff in Hp0 as Hb0. apply Qle_bool_iff in Hp1 as Hb1.
  rewrite Hb0, Hb1. cbn [andb negb].
  rewrite filter_nan_Fin, sort_map_Fin.
  pose proof (sort_length qs) as Hlen.
  set (s := sort Qle_bool qs) in *.
  assert (Hpos : (1 <= Z.of_nat (length s))%Z)
    by (rewrite Hlen; destruct qs; [contradiction|simpl; lia]).
  destruct (map Fin s) as [|v0 vs] eqn:Es.
  { destruct s; [simpl in Hpos; lia|discriminate]. }
  rewrite <- Es. clear Es v0 vs. rewrite length_map.
  destruct (virtual_index_bounds Hp0 Hp1 Hpos) as (_ & _ & Hfl).
  set (virtual := p / 100 * inject_Z (Z.of_nat (length s) - 1)) in *.
  rewrite !nth_map_Fin by lia.
  destruct (lerp_fin (nth (Z.to_nat (Qfloor virtual)) s 0)
              (nth (Z.to_nat (Z.min (Qfloor virtual + 1)
                                    (Z.of_nat (length s) - 1))) s 0)
              (virtual - inject_Z (Qfloor virtual))) as (q & -> & Hq).
  exists q. split; [reflexivity|exact Hq].
Qed.

(** At 0 and at 100 the percentile is the least and the greatest entry. *)
Lemma percentile_Q_0 (qs : list Q) :
  qs <> [] -> percentile_Q qs 0 == nth 0 (sort Qle_bool qs) 0.
Proof.
  intros Hne. unfold percentile_Q.
  set (s := sort Qle_bool qs).
  set (virtual := 0 / 100 * inject_Z (Z.of_nat (length s) - 1)).
  assert (Hv : virtual == 0) by (unfold virtual; field).
  assert (Hf : Qfloor virtual = 0%Z)
    by (apply Qfloor_unique; change (inject_Z 0) with 0; lra).
  rewrite Hf. change (inject_Z 0) with 0. simpl Z.to_nat at 1 3.
  rewrite Hv. ring.
Qed.

Lemma percentile_Q_100 (qs : list Q) :
  qs <> [] ->
  percentile_Q qs 100 == nth (length qs - 1) (sort Qle_bool qs) 0.
Proof.
  intros Hne. unfold percentile_Q.
  pose proof (sort_length qs) as Hlen.
  set (s := sort Qle_bool qs) in *.
  set (n := Z.of_nat (length s)).
  set (virtual := 100 / 100 * inject_Z (n - 1)).
  assert (Hv : virtual == inject_Z (n - 1)) by (unfold virtual; field).
  assert (Hf : Qfloor virtual = (n - 1)%Z)
    by (apply Qfloor_unique; lra).
  rewrite Hf, Z.min_r by lia.
  replace (Z.to_nat (n - 1)) with (length qs - 1)%nat by (unfold n; lia).
  rewrite Hv. ring.
Qed.

Lemma sorted_extremes (qs : list Q) (x : Q) :
  In x qs ->
  let s := sort Qle_bool qs in
  In (nth 0 s 0) qs /\ In (nth (length qs - 1) s 0) qs /\
  nth 0 s 0 <= x /\ x <= nth (length qs - 1) s 0.
Proof.
  intros Hx s.
  pose proof (sort_perm Qle_bool qs) as Hp.
  pose proof (@sort_sorted _ _ Qle_bool_total Qle_bool_trans qs) as Hs.
  pose proof (sort_length qs) as Hlen. fold s in Hp, Hs, Hlen.
  assert (Hpos : (0 < length s)%nat)
    by (rewrite Hlen; destruct qs; [destruct Hx|simpl; lia]).
  assert (Hxs : In x s) by (eapply Permutation_in; [symmetry|]; eassumption).
  destruct (In_nth _ _ 0 Hxs) as (i & Hi & Ei).
  repeat split.
  - eapply Permutation_in; [exact Hp|]. apply nth_In. lia.
  - eapply Permutation_in; [exact Hp|]. apply nth_In. lia.
  - rewrite <- Ei. apply Qle_bool_iff.
    apply (@sorted_nth_le _ _ Qle_bool_total s 0 Hs); lia.
  - rewrite <- Ei. apply Qle_bool_iff.
    apply (@sorted_nth_le _ _ Qle_bool_total s 0 Hs); lia.
Qed.

(** ** The normaliser *)

Lemma ravel_map (f : val -> val) (img : ndarray) :
  ravel (map_ndarray f img) = map f (ravel img).
Proof.
  unfold ravel, map_ndarray. cbn [data].
  now rewrite !concat_map.
Qed.

Lemma clip_fin (lo hi y : Q) : clip lo hi (Fin y) = Fin (clip_Q lo hi y).
Proof.
  unfold clip, clip_Q, vmax_q, vmin_q. cbn [vleb].
  destruct (Qle_bool y lo); cbn [vleb]; destruct (Qle_bool hi _); reflexivity.
Qed.

Lemma clip_Q_comp (lo hi y y' : Q) :
  y == y' -> clip_Q lo hi y == clip_Q lo hi y'.
Proof.
  intros E. unfold clip_Q.
  assert (H1 : Qle_bool y lo = Qle_bool y' lo) by now rewrite E.
  assert (H2 : Qle_bool hi y = Qle_bool hi y') by now rewrite E.
  rewrite H1. destruct (Qle_bool y' lo); [reflexivity|].
  rewrite H2. destruct (Qle_bool hi y'); [reflexivity|exact E].
Qed.

Lemma clip_Q_inside (lo hi y : Q) :
  lo <= y -> y <= hi -> clip_Q lo hi y == y.
Proof.
  intros H1 H2. unfold clip_Q.
  destruct (Qle_bool y lo) eqn:E1.
  - apply Qle_bool_iff in E1.
    destruct (Qle_bool hi lo) eqn:E2; [apply Qle_bool_iff in E2|]; lra.
  - destruct (Qle_bool hi y) eqn:E2; [apply Qle_bool_iff in E2; lra|reflexivity].
Qed.

Lemma clip_Q_range (lo hi y : Q) :
  lo <= hi -> lo <= clip_Q lo hi y /\ clip_Q lo hi y <= hi.
Proof.
  intros H. unfold clip_Q.
  destruct (Qle_bool y lo) eqn:E1.
  - destruct (Qle_bool hi lo) eqn:E2; lra.
  - assert (lo <= y).
    { destruct (Qlt_le_dec y lo) as [Hlt|]; [|assumption].
      assert (Qle_bool y lo = true) by (apply Qle_bool_iff; lra). congruence. }
    destruct (Qle_bool hi y) eqn:E2; [lra|].
    assert (y <= hi).
    { destruct (Qlt_le_dec hi y) as [Hlt|]; [|assumption].
      assert (Qle_bool hi y = true) by (apply Qle_bool_iff; lra). congruence. }
    lra.
Qed.

(** The scaled value of a finite pixel when the percentile range is not
    degenerate. *)
Lemma scale_fin (x vmin vmax max_val : Q) :
  ~ vmax == vmin ->
  exists y,
    vmul (vsub (Fin x) (Fin vmin))
         (vmul (vdiv (Fin 1) (vsub (Fin vmax) (Fin vmin))) (Fin max_val))
    = Fin y /\
    y == (x - vmin) * (max_val / (vmax - vmin)).
Proof.
  intros Hne. cbn [vsub vadd vopp vdiv].
  destruct (Qeq_bool (Qred (vmax + Qred (- vmin))) 0) eqn:E.
  - exfalso. apply Qeq_bool_eq in E. rewrite !Qred_correct in E.
    apply Hne. lra.
  - cbn [vmul]. eexists; split; [reflexivity|].
    rewrite !Qred_correct. field. intros H. apply Hne. lra.
Qed.

Lemma within_values (lo hi : Q) (l : list val) :
  Forall (within lo hi) l ->
  exists qs, l = map Fin qs /\ Forall (fun q => lo <= q /\ q <= hi) qs.
Proof.
  induction 1 as [|v l Hv _ (qs & -> & Hqs)].
  - now exists [].
  - destruct v as [q| | |]; try contradiction.
    exists (q :: qs). split; [reflexivity|now constructor].
Qed.

Lemma finite_values (l : list val) :
  Forall (fun v => is_finite v = true) l -> exists qs, l = map Fin qs.
Proof.
  induction 1 as [|v l Hv _ (qs & ->)].
  - now exists [].
  - destruct v as [q| | |]; try discriminate. now exists (q :: qs).
Qed.

Lemma filter_finite_Fin (l : list Q) : filter is_finite (map Fin l) = map Fin l.
Proof. induction l; simpl; congruence. Qed.

Lemma Forall2_map_Fin (R : val -> Q -> Prop) (f : val -> val) (qs : list Q) :
  (forall q, In q qs -> R (f (Fin q)) q) ->
  Forall2 R (map f (map Fin qs)) qs.
Proof.
  induction qs as [|q qs IH]; intros H; simpl; constructor.
  - apply H. now left.
  - apply IH. intros; apply H; now right.
Qed.

Lemma Forall2_join (R1 R2 : val -> Q -> Prop) (S : val -> val -> Prop)
    (l l' : list val) (qs : list Q) :
  (forall v v' q, R1 v q -> R2 v' q -> S v v') ->
  Forall2 R1 l qs -> Forall2 R2 l' qs -> Forall2 S l l'.
Proof.
  intros H H1. revert l'.
  induction H1 as [|v q l qs Hv _ IH]; intros k H2; inversion H2; subst;
    constructor; eauto.
Qed.

(** The code's normaliser on finite data with a percentile range that is
    not degenerate, for a floating target type. *)
Lemma rescale_img_finite (img : ndarray) (qs : list Q)
    (min_val max_val pmin pmax : Q) :
  ravel img = map Fin qs -> qs <> [] ->
  0 <= pmin -> pmin <= 100 -> 0 <= pmax -> pmax <= 100 ->
  ~ percentile_Q qs pmax == percentile_Q qs pmin ->
  exists out,
    rescale_img img min_val max_val float32 pmin pmax = Ok out /\
    nrows out = nrows img /\ ncols out = ncols img /\
    nchans out = nchans img /\
    Forall2
      (fun v q =>
         exists z, v = Fin z /\
           z == clip_Q min_val max_val
                  ((q - percentile_Q qs pmin)
                   * (max_val / (percentile_Q qs pmax - percentile_Q qs pmin))))
      (ravel out) qs.
Proof.
  intros Hr Hne Hn0 Hn1 Hx0 Hx1 Hdeg. unfold rescale_img. rewrite Hr.
  destruct (nanpercentile_finite Hne Hn0 Hn1) as (a & -> & Ea).
  destruct (nanpercentile_finite Hne Hx0 Hx1) as (b & -> & Eb).
  cbn [bind]. eexists; split; [reflexivity|]. cbn [nrows ncols nchans].
  repeat split.
  rewrite !ravel_map, Hr, map_map.
  apply Forall2_map_Fin. intros q _. cbn [astype].
  destruct (@scale_fin q a b max_val) as (y & -> & Ey).
  { rewrite Ea, Eb. exact Hdeg. }
  rewrite clip_fin. eexists; split; [reflexivity|].
  apply clip_Q_comp. rewrite Ey, Ea, Eb. reflexivity.
Qed.

(** The document's normaliser on the same data. *)
Lemma normalizer_spec_finite (img : ndarray) (qs : list Q)
    (min_val max_val pmin pmax : Q) :
  ravel img = map Fin qs -> qs <> [] ->
  0 <= pmin -> pmin <= 100 -> 0 <= pmax -> pmax <= 100 ->
  ~ percentile_Q qs pmax == percentile_Q qs pmin ->
  exists out,
    normalizer_spec img min_val max_val float32 pmin pmax = Ok out /\
    nrows out = nrows img /\ ncols out = ncols img /\
    nchans out = nchans img /\
    Forall2
      (fun v q =>
         exists z, v = Fin z /\
           z == clip_Q min_val max_val
                  ((q - percentile_Q qs pmin) * (max_val - min_val)
                   / (percentile_Q qs pmax - percentile_Q qs pmin)
                   + min_val))
      (ravel out) qs.
Proof.
  intros Hr Hne Hn0 Hn1 Hx0 Hx1 Hdeg. unfold normalizer_spec.
  rewrite Hr, filter_finite_Fin.
  destruct (nanpercentile_finite Hne Hn0 Hn1) as (a & -> & Ea).
  destruct (nanpercentile_finite Hne Hx0 Hx1) as (b & -> & Eb).
  cbn [bind veqb].
  assert (Hba : ~ b == a) by (rewrite Ea, Eb; exact Hdeg).
  destruct (Qeq_bool b a) eqn:E; [apply Qeq_bool_eq in E; contradiction|].
  eexists; split; [reflexivity|]. cbn [nrows ncols nchans].
  repeat split.
  rewrite ravel_map, Hr.
  apply Forall2_map_Fin. intros q _. cbn [astype vsub vadd vopp vmul vdiv].
  destruct (Qeq_bool (Qred (b + Qred (- a))) 0) eqn:E0.
  { exfalso. apply Qeq_bool_eq in E0. rewrite !Qred_correct in E0.
    apply Hba. lra. }
  cbn [vadd]. rewrite clip_fin. eexists; split; [reflexivity|].
  apply clip_Q_comp. rewrite !Qred_correct, <- Ea, <- Eb.
  field. intros H. apply Hba. lra.
Qed.

Lemma percentile_range_Q (img : ndarray) (qs : list Q) (pmin pmax : Q) :
  ravel img = map Fin qs -> qs <> [] ->
  0 <= pmin -> pmin <= 100 -> 0 <= pmax -> pmax <= 100 ->
  percentile_range img pmin pmax ->
  ~ percentile_Q qs pmax == percentile_Q qs pmin.
Proof.
  intros Hr Hne Hn0 Hn1 Hx0 Hx1 Hrange.
  destruct (nanpercentile_finite Hne Hn0 Hn1) as (a & Ha & Ea).
  destruct (nanpercentile_finite Hne Hx0 Hx1) as (b & Hb & Eb).
  rewrite <- Hr in Ha, Hb. pose proof (Hrange _ _ Ha Hb) as H.
  simpl in H. now rewrite <- Ea, <- Eb.
Qed.


(** On finite data with a percentile range that is not degenerate, the
    floating output of [rescale_img] lies in [min_val, max_val]. *)
Lemma rescale_img_clip_invariant (img : ndarray)
    (min_val max_val pmin pmax : Q) :
  all_finite img -> ravel img <> [] ->
  0 <= pmin -> pmin <= 100 -> 0 <= pmax -> pmax <= 100 ->
  percentile_range img pmin pmax -> min_val <= max_val ->
  exists out,
    rescale_img img min_val max_val float32 pmin pmax = Ok out /\
    Forall (within min_val max_val) (ravel out).
Proof.
  intros Hfin Hne Hn0 Hn1 Hx0 Hx1 Hrange Hle.
  destruct (finite_values Hfin) as [qs Hr].
  assert (Hq : qs <> []) by (intros ->; now apply Hne).
  pose proof (percentile_range_Q Hr Hq Hn0 Hn1 Hx0 Hx1 Hrange) as Hdeg.
  destruct (@rescale_img_finite img qs min_val max_val pmin pmax)
    as (out & Ho & _ & _ & _ & H1); try assumption.
  exists out. split; [exact Ho|].
  induction H1 as [|v q l qs' (z & -> & Ez) _ IH]; constructor; [|exact IH].
  simpl. rewrite Ez. now apply clip_Q_range.
Qed.



(** On a degenerate percentile range the division by zero is general: every
    pixel that equals the percentile comes back as [nan], whatever the
    target range. *)
Lemma rescale_img_degenerate_nan (img : ndarray)
    (min_val max_val pmin pmax a b : Q) :
  nanpercentile (ravel img) pmin = Ok (Fin a) ->
  nanpercentile (ravel img) pmax = Ok (Fin b) ->
  b == a ->
  exists out f,
    rescale_img img min_val max_val float32 pmin pmax = Ok out /\
    ravel out = map f (ravel img) /\
    forall q, q == a -> f (Fin q) = NaN.
Proof.
  intros Ha Hb E. unfold rescale_img. rewrite Ha, Hb. cbn [bind].
  eexists; eexists; split; [reflexivity|].
  split; [rewrite !ravel_map, map_map; reflexivity|].
  intros q Hq. cbn [astype vsub vadd vopp vdiv].
  assert (E0 : Qeq_bool (Qred (b + Qred (- a))) 0 = true).
  { apply Qeq_bool_iff. rewrite !Qred_correct. lra. }
  rewrite E0.
  assert (Es : sgn (Qred (q + Qred (- a))) = Eq).
  { unfold sgn. apply Qeq_alt. rewrite !Qred_correct. lra. }
  change (inf_of (sgn 1)) with PInf. cbn [vmul].
  destruct (sgn max_val); cbn [inf_of vmul flip CompOpp];
    rewrite ?Es; reflexivity.
Qed.

(** C3, on the code.  On a constant frame the two percentiles are equal,
    1.0 / (vmax - vmin) is a division by zero that gives [+inf], and every
    pixel becomes 0 * inf = [nan]: the call returns, and no pixel of what
    it returns equals [min_val]. *)
Theorem rescale_img_constant_frame_nan :
  nanpercentile (ravel frame_const_5) 0 = Ok (Fin 5) /\
  nanpercentile (ravel frame_const_5) 100 = Ok (Fin 5) /\
  vdiv (Fin 1) (vsub (Fin 5) (Fin 5)) = PInf /\
  rescale_img frame_const_5 0 1 float32 0 100
  = Ok (mk_ndarray 2 2 1 [[[NaN]; [NaN]]; [[NaN]; [NaN]]]).
Proof.
  repeat split; reflexivity.
Qed.

(** C4, on the code.  The same division by zero takes a frame of finite
    values out of the target range: with the percentiles 2 and 98 a
    constant frame comes back as [nan] in every pixel. *)
Theorem rescale_img_constant_frame_outside_range :
  all_finite frame_const_7 /\
  exists out,
    rescale_img frame_const_7 0 1 float32 2 98 = Ok out /\
    ravel out = [NaN; NaN; NaN] /\
    Forall (fun v => ~ within 0 1 v) (ravel out).
Proof.
  split; [repeat constructor|].
  eexists; split; [reflexivity|]. split; [reflexivity|].
  repeat constructor; intros [].
Qed.

(** ** Idempotence of the normaliser *)

Lemma veq_trans (a b c : val) : a =v= b -> b =v= c -> a =v= c.
Proof.
  destruct a, b, c; simpl; auto; try contradiction.
  intros H1 H2; now rewrite H1.
Qed.

Lemma within_veq (lo hi : Q) (a b : val) :
  a =v= b -> within lo hi b -> within lo hi a.
Proof.
  destruct a, b; simpl; auto; try contradiction.
  intros E [H1 H2]. rewrite E. now split.
Qed.

Lemma Forall2_veq_within (lo hi : Q) (l l' : list val) :
  Forall2 veq l l' -> Forall (within lo hi) l' -> Forall (within lo hi) l.
Proof.
  induction 1 as [|u v k k' Huv _ IH]; intros Hk; constructor;
    inversion Hk; subst.
  - eapply within_veq; eassumption.
  - now apply IH.
Qed.

Lemma Forall2_veq_Exists (t : val) (l l' : list val) :
  Forall2 veq l l' ->
  Exists (fun v => v =v= t) l' -> Exists (fun v => v =v= t) l.
Proof.
  induction 1 as [|u v k k' Huv _ IH]; intros Ht; inversion Ht; subst.
  - left. eapply veq_trans; eassumption.
  - right. now apply IH.
Qed.

Lemma spans_same_frame (a b : ndarray) (lo hi : Q) :
  same_frame a b -> spans_exactly b lo hi -> spans_exactly a lo hi.
Proof.
  intros (_ & _ & _ & H) (Hw & Hlo & Hhi). repeat split.
  - eapply Forall2_veq_within; eassumption.
  - eapply Forall2_veq_Exists; eassumption.
  - eapply Forall2_veq_Exists; eassumption.
Qed.

Lemma Forall2_to_map_Fin (R : val -> Q -> Prop) (P : Q -> Prop)
    (l : list val) (qs : list Q) :
  (forall v q, P q -> R v q -> v =v= Fin q) ->
  Forall2 R l qs -> Forall P qs -> Forall2 veq l (map Fin qs).
Proof.
  intros H. induction 1 as [|v q l qs Hv _ IH]; intros HP; simpl;
    constructor; inversion HP; subst; auto.
Qed.

Lemma Exists_Fin (t : Q) (qs : list Q) :
  Exists (fun v => v =v= Fin t) (map Fin qs) -> exists q, In q qs /\ q == t.
Proof.
  intros H. apply Exists_exists in H as (v & Hin & Hv).
  apply in_map_iff in Hin as (q & <- & Hq). now exists q.
Qed.

(** A frame that spans exactly [0, max_val] is returned as it is. *)
Lemma rescale_img_spanning (img : ndarray) (max_val : Q) :
  0 < max_val -> spans_exactly img 0 max_val ->
  exists out,
    rescale_img img 0 max_val float32 0 100 = Ok out /\ same_frame out img.
Proof.
  intros HM (Hw & Hlo & Hhi).
  destruct (within_values Hw) as (qs & Hr & Hqs).
  rewrite Hr in Hlo, Hhi.
  apply Exists_Fin in Hlo as (q0 & Hq0 & E0).
  apply Exists_Fin in Hhi as (q1 & Hq1 & E1).
  assert (Hne : qs <> []) by (intros ->; destruct Hq0).
  rewrite Forall_forall in Hqs.
  destruct (sorted_extremes _ _ Hq0) as (Hin0 & _ & Hle0 & _).
  destruct (sorted_extremes _ _ Hq1) as (_ & Hin1 & _ & Hle1).
  apply Hqs in Hin0, Hin1.
  assert (Emin : percentile_Q qs 0 == 0)
    by (rewrite percentile_Q_0 by assumption; lra).
  assert (Emax : percentile_Q qs 100 == max_val)
    by (rewrite percentile_Q_100 by assumption; lra).
  destruct (@rescale_img_finite img qs 0 max_val 0 100)
    as (out & Ho & Hr1 & Hc1 & Hh1 & H1); try assumption; try lra.
  exists out. split; [exact Ho|]. repeat split; try assumption.
  rewrite Hr.
  eapply (@Forall2_to_map_Fin _ (fun q => 0 <= q /\ q <= max_val));
    [|exact H1|now apply Forall_forall].
  intros v q [Hq0' Hq1'] (z & -> & Ez). simpl.
  rewrite Ez. transitivity (clip_Q 0 max_val q).
  - apply clip_Q_comp. rewrite Emin, Emax. field. lra.
  - now apply clip_Q_inside.
Qed.




Lemma coregister_stack_median_shift_witness :
  exists shifted,
    Coregister.coregister_stack keep keep keep move register planes_2x3 0 10
      false
    = Ok (Coregister.Measured nat
            [[(0, 0); (0, 0); (0, 0)]; [(1, 1); (1, 1); (5, 5)]]) /\
    Coregister.coregister_stack keep keep keep move register planes_2x3 0 10
      true
    = Ok (Coregister.Shifted shifted [(Fin 0, Fin 0); (Fin 1, Fin 1)]).
Proof.
  destruct (@coregister_stack_median_shift nat keep keep keep move register
              planes_2x3 0 10)
    as (shifts & shifted & averaged & H1 & H2 & _).
  - split; [reflexivity|repeat constructor].
  - cbn. lia.
  - cbn. lia.
  - exists shifted. split; [reflexivity|].
    rewrite H2. vm_compute in H2. injection H2 as _ <-. reflexivity.
Defined.
